(** * AuthContext: the shared authentication cell of the react-intern app

    The development follows [react-intern/src/AuthContext.js]:

    - [AuthProvider] reads the ['user'] slot of [localStorage], hands the
      text to [JSON.parse] and keeps the result in a [useState] hook;
    - [login] and [logout] replace the hook's value through [setUser];
    - the provider exposes [{ user, login, logout }] to its consumers.

    The host functions the component calls ([localStorage.getItem],
    [JSON.parse], [useState]) are modelled first, then the component, then
    the observers of the cell as the spec describes them.

    The components of [react-intern/src/components] follow: the counter of
    [Home], the memoised handler [Usecallback] passes to the memoised
    [Button], and [Useref], which shows the user of the context beside a
    count and the count before it. *)

From Stdlib Require Import String Ascii.
From stdpp Require Import gmap list.

(** ** JavaScript strings

    A JavaScript string is a sequence of 16-bit code units. *)

Abbreviation jsstring := (list N).

(** The code units of an ASCII literal. *)
Definition str (s : string) : jsstring := N_of_ascii <$> list_ascii_of_string s.

Definition ch (a : ascii) : N := N_of_ascii a.

(** The double quote. *)
Definition quote : N := 34.

(** An ASCII literal in which every apostrophe stands for a double quote. *)
Definition txt (s : string) : jsstring :=
  (fun c => if (c =? ch "'")%N then quote else c) <$> str s.

(** ** JSON texts

    [JSON.parse] accepts exactly the texts of the JSON grammar: white space,
    one value, white space.  The tree below is what the grammar recognises; a
    number keeps the decimal [(-1)^neg * mant * 10^exp] its token denotes. *)

#[warnings="-register-all"]
Inductive json :=
| JNull
| JBool (b : bool)
| JNumber (neg : bool) (mant : N) (exp : Z)
| JString (s : jsstring)
| JArray (elems : list json)
| JObject (members : list (jsstring * json)).

Module Parser.

Local Open Scope N_scope.

(** Open containers, innermost first.  Elements and members are kept in
    reverse while the container is open. *)
Inductive frame :=
| FArray (done : list json)
| FObject (done : list (jsstring * json)) (key : jsstring).

(** Whether the string being read is a value or the key of a member. *)
Inductive strctx :=
| SValue
| SKey (done : list (jsstring * json)).

(** Positions inside a number token. *)
Inductive numpos :=
| NMinus | NZero | NInt | NDot | NFrac | NExp | NExpSign | NExpDigits.

Record number := {
  n_neg : bool;        (* a leading minus was read *)
  n_mant : N;          (* the digits read before the exponent *)
  n_scale : Z;         (* how many of them follow the point *)
  n_eneg : bool;       (* the exponent has a minus sign *)
  n_exp : N            (* the digits of the exponent *)
}.

Inductive mode :=
| MValue                                        (* a value starts here *)
| MArrayStart                                   (* after [[]: a value or []] *)
| MObjectStart                                  (* after [{]: a key or [}] *)
| MKey (done : list (jsstring * json))          (* after [,] in an object *)
| MColon (done : list (jsstring * json)) (key : jsstring)
| MAfter (v : json)                             (* [v] is complete *)
| MLiteral (rest : jsstring) (v : json)         (* inside null, true, false *)
| MString (k : strctx) (acc : jsstring)
| MEscape (k : strctx) (acc : jsstring)
| MUnicode (k : strctx) (acc : jsstring) (more : nat) (cu : N)
| MNumber (p : numpos) (n : number).

Definition state : Type := mode * list frame.

Definition is_ws (c : N) : bool :=
  (c =? 32) || (c =? 9) || (c =? 10) || (c =? 13).

Definition digit (c : N) : option N :=
  if (48 <=? c) && (c <=? 57) then Some (c - 48) else None.

Definition hexdigit (c : N) : option N :=
  if (48 <=? c) && (c <=? 57) then Some (c - 48)
  else if (65 <=? c) && (c <=? 70) then Some (c - 55)
  else if (97 <=? c) && (c <=? 102) then Some (c - 87)
  else None.

Definition number_value (n : number) : json :=
  let e := Z.of_N (n_exp n) in
  JNumber (n_neg n) (n_mant n)
          ((if n_eneg n then - e else e) - n_scale n)%Z.

Definition push_mant (d : N) (n : number) : number :=
  {| n_neg := n_neg n; n_mant := 10 * n_mant n + d; n_scale := n_scale n;
     n_eneg := n_eneg n; n_exp := n_exp n |}.

Definition push_frac (d : N) (n : number) : number :=
  {| n_neg := n_neg n; n_mant := 10 * n_mant n + d;
     n_scale := (n_scale n + 1)%Z;
     n_eneg := n_eneg n; n_exp := n_exp n |}.

Definition push_exp (d : N) (n : number) : number :=
  {| n_neg := n_neg n; n_mant := n_mant n; n_scale := n_scale n;
     n_eneg := n_eneg n; n_exp := 10 * n_exp n + d |}.

Definition set_eneg (n : number) : number :=
  {| n_neg := n_neg n; n_mant := n_mant n; n_scale := n_scale n;
     n_eneg := true; n_exp := n_exp n |}.

Definition number0 (neg : bool) : number :=
  {| n_neg := neg; n_mant := 0; n_scale := 0; n_eneg := false; n_exp := 0 |}.

(** The string just closed is a value, or the key of the next member. *)
Definition close_string (k : strctx) (s : jsstring) : mode :=
  match k with
  | SValue => MAfter (JString s)
  | SKey done => MColon done s
  end.

(** The first code unit of a value. *)
Definition start_value (c : N) (st : list frame) : option state :=
  if c =? ch "{" then Some (MObjectStart, st)
  else if c =? ch "[" then Some (MArrayStart, FArray [] :: st)
  else if c =? quote then Some (MString SValue [], st)
  else if c =? ch "-" then Some (MNumber NMinus (number0 true), st)
  else if c =? ch "0" then Some (MNumber NZero (number0 false), st)
  else if c =? ch "n" then Some (MLiteral (str "ull") JNull, st)
  else if c =? ch "t" then Some (MLiteral (str "rue") (JBool true), st)
  else if c =? ch "f" then Some (MLiteral (str "alse") (JBool false), st)
  else match digit c with
       | Some d => Some (MNumber NInt (push_mant d (number0 false)), st)
       | None => None
       end.

(** What may follow the complete value [v]. *)
Definition after_value (v : json) (c : N) (st : list frame) : option state :=
  if is_ws c then Some (MAfter v, st)
  else match st with
       | [] => None
       | FArray done :: st' =>
           if c =? ch "," then Some (MValue, FArray (v :: done) :: st')
           else if c =? ch "]" then Some (MAfter (JArray (rev (v :: done))), st')
           else None
       | FObject done key :: st' =>
           if c =? ch "," then Some (MKey ((key, v) :: done), st')
           else if c =? ch "}"
           then Some (MAfter (JObject (rev ((key, v) :: done))), st')
           else None
       end.

Definition is_final (p : numpos) : bool :=
  match p with
  | NZero | NInt | NFrac | NExpDigits => true
  | _ => false
  end.

(** A number token ends at the first code unit that cannot extend it; that
    code unit is then read as what follows the number. *)
Definition end_number (p : numpos) (n : number) (c : N) (st : list frame)
  : option state :=
  if is_final p then after_value (number_value n) c st else None.

Definition is_e (c : N) : bool := (c =? ch "e") || (c =? ch "E").

Definition step_number (p : numpos) (n : number) (c : N) (st : list frame)
  : option state :=
  match p with
  | NMinus =>
      if c =? ch "0" then Some (MNumber NZero n, st)
      else match digit c with
           | Some d => Some (MNumber NInt (push_mant d n), st)
           | None => None
           end
  | NZero =>
      if c =? ch "." then Some (MNumber NDot n, st)
      else if is_e c then Some (MNumber NExp n, st)
      else end_number p n c st
  | NInt =>
      match digit c with
      | Some d => Some (MNumber NInt (push_mant d n), st)
      | None =>
          if c =? ch "." then Some (MNumber NDot n, st)
          else if is_e c then Some (MNumber NExp n, st)
          else end_number p n c st
      end
  | NDot =>
      match digit c with
      | Some d => Some (MNumber NFrac (push_frac d n), st)
      | None => None
      end
  | NFrac =>
      match digit c with
      | Some d => Some (MNumber NFrac (push_frac d n), st)
      | None =>
          if is_e c then Some (MNumber NExp n, st) else end_number p n c st
      end
  | NExp =>
      if c =? ch "+" then Some (MNumber NExpSign n, st)
      else if c =? ch "-" then Some (MNumber NExpSign (set_eneg n), st)
      else match digit c with
           | Some d => Some (MNumber NExpDigits (push_exp d n), st)
           | None => None
           end
  | NExpSign =>
      match digit c with
      | Some d => Some (MNumber NExpDigits (push_exp d n), st)
      | None => None
      end
  | NExpDigits =>
      match digit c with
      | Some d => Some (MNumber NExpDigits (push_exp d n), st)
      | None => end_number p n c st
      end
  end.

(** The code unit an escape letter stands for. *)
Definition escape (c : N) : option N :=
  if (c =? quote) || (c =? ch "\") || (c =? ch "/") then Some c
  else if c =? ch "b" then Some 8
  else if c =? ch "f" then Some 12
  else if c =? ch "n" then Some 10
  else if c =? ch "r" then Some 13
  else if c =? ch "t" then Some 9
  else None.

Definition step (s : state) (c : N) : option state :=
  let '(m, st) := s in
  match m with
  | MValue => if is_ws c then Some (MValue, st) else start_value c st
  | MArrayStart =>
      if is_ws c then Some (MArrayStart, st)
      else if c =? ch "]"
      then match st with
           | FArray _ :: st' => Some (MAfter (JArray []), st')
           | _ => None
           end
      else start_value c st
  | MObjectStart =>
      if is_ws c then Some (MObjectStart, st)
      else if c =? ch "}" then Some (MAfter (JObject []), st)
      else if c =? quote then Some (MString (SKey []) [], st)
      else None
  | MKey done =>
      if is_ws c then Some (MKey done, st)
      else if c =? quote then Some (MString (SKey done) [], st)
      else None
  | MColon done key =>
      if is_ws c then Some (MColon done key, st)
      else if c =? ch ":" then Some (MValue, FObject done key :: st)
      else None
  | MAfter v => after_value v c st
  | MLiteral rest v =>
      match rest with
      | [] => None
      | c' :: rest' =>
          if c =? c'
          then Some (match rest' with [] => MAfter v | _ => MLiteral rest' v end, st)
          else None
      end
  | MString k acc =>
      if c =? quote then Some (close_string k (rev acc), st)
      else if c =? ch "\" then Some (MEscape k acc, st)
      else if c <? 32 then None
      else Some (MString k (c :: acc), st)
  | MEscape k acc =>
      if c =? ch "u" then Some (MUnicode k acc 4 0, st)
      else match escape c with
           | Some e => Some (MString k (e :: acc), st)
           | None => None
           end
  | MUnicode k acc more cu =>
      match hexdigit c, more with
      | Some d, 1%nat => Some (MString k ((16 * cu + d) :: acc), st)
      | Some d, S more' => Some (MUnicode k acc more' (16 * cu + d), st)
      | _, _ => None
      end
  | MNumber p n => step_number p n c st
  end.

Fixpoint run (s : state) (text : jsstring) : option state :=
  match text with
  | [] => Some s
  | c :: text' =>
      match step s c with
      | Some s' => run s' text'
      | None => None
      end
  end.

(** At the end of the text one complete value must have been read and every
    container closed. *)
Definition finish (s : state) : option json :=
  match s with
  | (MAfter v, []) => Some v
  | (MNumber p n, []) => if is_final p then Some (number_value n) else None
  | _ => None
  end.

Definition parse (text : jsstring) : option json :=
  match run (MValue, []) text with
  | Some s => finish s
  | None => None
  end.

End Parser.

Definition parse_json : jsstring -> option json := Parser.parse.


(** ** Completions

    A JavaScript call either returns a value or throws. *)

Inductive error := SyntaxError.

Inductive completion (A : Type) :=
| Return (a : A)
| Throw (e : error).
Arguments Return {A} a.
Arguments Throw {A} e.

#[export] Instance completion_ret : MRet completion := @Return.
#[export] Instance completion_bind : MBind completion :=
  fun A B f m => match m with Return a => f a | Throw e => Throw e end.

(** ** The browser store *)

(** [localStorage.getItem(key)]: the text kept under [key], [None] for the
    JavaScript [null] returned when the key is absent. *)
Definition getItem (localStorage : gmap jsstring jsstring) (key : jsstring)
  : option jsstring := localStorage !! key.

(** The string conversion [JSON.parse] applies to its argument. *)
Definition ToString (x : option jsstring) : jsstring :=
  match x with
  | None => str "null"
  | Some s => s
  end.

(** ** Numbers

    The counters of the components hold integer-valued doubles.  The sum of
    two of them is the double nearest to the exact sum, a tie going to the
    even significand; [round_number] is that rounding on integers (53 bits
    of significand; the counters stay far from the largest double). *)

Definition round_number (z : Z) : Z :=
  if (Z.abs z <=? 2 ^ 53)%Z then z
  else
    let e := (Z.log2 (Z.abs z) - 52)%Z in
    let q := Z.shiftr (Z.abs z) e in
    let r := Z.land (Z.abs z) (Z.ones e) in
    let half := Z.shiftl 1 (e - 1) in
    let q' := if (half <? r)%Z || ((r =? half)%Z && Z.odd q) then (q + 1)%Z else q in
    (Z.sgn z * Z.shiftl q' e)%Z.

(** [x + y] and [x - y] on numbers. *)
Definition js_add (x y : Z) : Z := round_number (x + y).

Definition js_sub (x y : Z) : Z := round_number (x - y).

(** ** Home: a counter with two buttons ([components/Home.js]) *)

Module Home.

Record state := {
  name : jsstring;
  email : jsstring;
  count : Z
}.

(** [useState("")], [useState("")], [useState(0)]. *)
Definition mount : state := {| name := []; email := []; count := 0 |}.

Definition setCount (v : Z) (s : state) : state :=
  {| name := name s; email := email s; count := v |}.

(** The text [handleSubmit] hands to [alert]. *)
Definition handleSubmit (s : state) : jsstring :=
  str "Name:" ++ name s ++ str " Email:" ++ email s.

Inductive button := Increment | Decrement.

(** [onClick] of the two buttons. *)
Definition onClick (b : button) (s : state) : state :=
  match b with
  | Increment => setCount (js_add (count s) 1) s
  | Decrement => setCount (js_sub (count s) 1) s
  end.

Fixpoint clicks (bs : list button) (s : state) : state :=
  match bs with
  | [] => s
  | b :: bs' => clicks bs' (onClick b s)
  end.

(** Presses of Increment less presses of Decrement. *)
Fixpoint net (bs : list button) : Z :=
  match bs with
  | [] => 0
  | Increment :: bs' => 1 + net bs'
  | Decrement :: bs' => -1 + net bs'
  end.

End Home.

(** ** Usecallback and Button: a memoised handler for a memoised child
    ([components/Usecallback.js], [components/Button.js]) *)

Module Usecallback.

(** The props of [Button]: the function object behind [onClick], known by
    the order in which function objects were created, and the text between
    the tags. *)
Record props := {
  onClick : nat;
  children : jsstring
}.

Record state := {
  count : Z;
  otherCount : Z;
  increment : option nat;        (* what [useCallback] keeps; empty before the first render *)
  functions : nat;               (* how many arrow functions [increment] were created *)
  Button_props : option props;   (* the props of [Button]'s last render *)
  Button_renders : nat           (* how often the body of [Button] ran *)
}.

(** [useCallback(fn, [])]: the dependencies never change, so the function of
    the first render is kept. *)
Definition useCallback (kept : option nat) (fn : nat) : nat :=
  match kept with
  | None => fn
  | Some f => f
  end.

(** [React.memo] compares each prop with the one of the last render. *)
Definition same_props (p q : props) : bool :=
  Nat.eqb (onClick p) (onClick q) && bool_decide (children p = children q).

(** [React.memo(Button)]: the body runs unless the props are the same. *)
Definition Button (last : option props) (p : props) (renders : nat) : nat :=
  match last with
  | Some q => if same_props q p then renders else S renders
  | None => S renders
  end.

(** One render of [Usecallback]: the arrow function is created anew,
    [useCallback] decides which one [Button] receives. *)
Definition render (s : state) : state :=
  let fn := functions s in
  let inc := useCallback (increment s) fn in
  let p := {| onClick := inc; children := str "Increment Count" |} in
  {| count := count s;
     otherCount := otherCount s;
     increment := Some inc;
     functions := S (functions s);
     Button_props := Some p;
     Button_renders := Button (Button_props s) p (Button_renders s) |}.

Definition mount : state :=
  render {| count := 0; otherCount := 0; increment := None; functions := 0;
            Button_props := None; Button_renders := 0 |}.

(** [setCount(f)] with an updater: the component renders again unless the
    state stays the same. *)
Definition setCount (f : Z -> Z) (s : state) : state :=
  let v := f (count s) in
  if bool_decide (v = count s) then s
  else render {| count := v; otherCount := otherCount s;
                 increment := increment s; functions := functions s;
                 Button_props := Button_props s;
                 Button_renders := Button_renders s |}.

Definition setOtherCount (v : Z) (s : state) : state :=
  if bool_decide (v = otherCount s) then s
  else render {| count := count s; otherCount := v;
                 increment := increment s; functions := functions s;
                 Button_props := Button_props s;
                 Button_renders := Button_renders s |}.

Inductive button := IncrementCount | UpdateOtherCount.

(** A click: [Button] calls the function it was handed, every [increment]
    ever created having the body [setCount(prevCount => prevCount + 1)]; the
    other button calls [setOtherCount(otherCount + 1)]. *)
Definition click (b : button) (s : state) : state :=
  match b with
  | IncrementCount => setCount (fun prevCount => js_add prevCount 1) s
  | UpdateOtherCount => setOtherCount (js_add (otherCount s) 1) s
  end.

Fixpoint clicks (bs : list button) (s : state) : state :=
  match bs with
  | [] => s
  | b :: bs' => clicks bs' (click b s)
  end.

Fixpoint presses (b : button) (bs : list button) : Z :=
  match bs, b with
  | [], _ => 0
  | IncrementCount :: bs', IncrementCount => 1 + presses b bs'
  | UpdateOtherCount :: bs', UpdateOtherCount => 1 + presses b bs'
  | _ :: bs', _ => presses b bs'
  end.

End Usecallback.

(** ** Useref: the previous count, beside the user of the context
    ([components/Useref.js]) *)

Module Useref.

Section Useref.

(** JavaScript values, and [user?.name] on them. *)
Context {T : Type}.
Variable name_of : T -> T.

Record state := {
  count : Z;
  prevCountRef : option Z;      (* [prevCountRef.current]; empty for [undefined] *)
  user : T;                     (* the [user] of the context value *)
  shown_name : T;               (* what the last render put before Welcome *)
  shown_previous : option Z;    (* what it put after Previous Count *)
  shown_current : Z             (* what it put after Current Count *)
}.

(** One render with the hooks' values [count] and [ref] and the context's
    [user], followed by the effect, which runs when [count] is not the one of
    the render before ([deps]; empty at the first render). *)
Definition render (deps : option Z) (count : Z) (ref : option Z) (user : T)
  : state :=
  {| count := count;
     prevCountRef := if bool_decide (deps = Some count) then ref else Some count;
     user := user;
     shown_name := name_of user;
     shown_previous := ref;
     shown_current := count |}.

(** [useState(0)], [useRef()], and the context's [user] at that time. *)
Definition mount (user : T) : state := render None 0 None user.

(** [setCount(v)]: a render unless the state stays the same. *)
Definition setCount (v : Z) (s : state) : state :=
  if bool_decide (v = count s) then s
  else render (Some (count s)) v (prevCountRef s) (user s).

Inductive event :=
| Increment                   (* the button: [setCount(count + 1)] *)
| Provided (user : T).        (* the provider renders with a new context value *)

Definition handle (e : event) (s : state) : state :=
  match e with
  | Increment => setCount (js_add (count s) 1) s
  | Provided u => render (Some (count s)) (count s) (prevCountRef s) u
  end.

Fixpoint handles (es : list event) (s : state) : state :=
  match es with
  | [] => s
  | e :: es' => handles es' (handle e s)
  end.

End Useref.

End Useref.

(** ** Sample data

    The user record of the spec's scenario, and three stores: one without a
    ['user'] slot, one whose slot holds that record, one whose slot holds a
    text that is not JSON. *)

Definition ann : json :=
  JObject [(str "name", JString (str "Ann"));
           (str "email", JString (str "ann@x.com"))].

Definition empty_store : gmap jsstring jsstring := ∅.

Definition ann_store : gmap jsstring jsstring :=
  {[ str "user" := txt "{'name':'Ann','email':'ann@x.com'}" ]}.

Definition broken_store : gmap jsstring jsstring :=
  {[ str "user" := str "{" ]}.

(** [user?.name] on a value that is [undefined] or a parsed tree: the last
    member called [name] of an object, [undefined] for anything else. *)
Fixpoint lookup_member (k : jsstring) (ms : list (jsstring * json))
  : option json :=
  match ms with
  | [] => None
  | (k', v) :: ms' =>
      match lookup_member k ms' with
      | Some w => Some w
      | None => if bool_decide (k' = k) then Some v else None
      end
  end.

Definition optional_name (u : option json) : option json :=
  match u with
  | Some (JObject ms) => lookup_member (str "name") ms
  | _ => None
  end.

Section AuthContext.

(** JavaScript values, and the value [JSON.parse] builds from a parsed
    text. *)
Context {T : Type}.
Variable reify : json -> T.

Definition null : T := reify JNull.

(** [JSON.parse(x)] throws a [SyntaxError] unless the text is JSON. *)
Definition JSON_parse (x : option jsstring) : completion T :=
  match parse_json (ToString x) with
  | Some j => Return (reify j)
  | None => Throw SyntaxError
  end.

(** [useState(initialState)]: the hook is empty during the first render and
    takes the initial state; afterwards it keeps what [setUser] stored. *)
Definition useState (hook : option T) (initialState : T) : T :=
  match hook with
  | None => initialState
  | Some current => current
  end.

(** One render of the component: the [user] it provides. *)
Definition AuthProvider (localStorage : gmap jsstring jsstring)
           (hook : option T) : completion T :=
  data ← JSON_parse (getItem localStorage (str "user"));
  let user := useState hook data in
  mret user.

(** The mounted provider and the store it reads. *)
Record cell := {
  localStorage : gmap jsstring jsstring;
  user : T
}.

Definition render (ls : gmap jsstring jsstring) (hook : option T)
  : completion cell :=
  u ← AuthProvider ls hook;
  mret {| localStorage := ls; user := u |}.

(** Construction is the first render. *)
Definition mount (ls : gmap jsstring jsstring) : completion cell :=
  render ls None.

(** [setUser(v)] stores [v] in the hook and renders the component again. *)
Definition setUser (v : T) (c : cell) : completion cell :=
  render (localStorage c) (Some v).

Definition login (userData : T) : cell -> completion cell := setUser userData.

Definition logout : cell -> completion cell := setUser null.

(** What a consumer reads from the context value. *)
Definition read (c : cell) : T := user c.

Inductive action :=
| Login (userData : T)
| Logout.

Definition apply (a : action) : cell -> completion cell :=
  match a with
  | Login v => login v
  | Logout => logout
  end.

Fixpoint run (acts : list action) (c : cell) : completion cell :=
  match acts with
  | [] => mret c
  | a :: acts' => c' ← apply a c; run acts' c'
  end.

(** The values [read] returns at construction and after each action. *)
Fixpoint observe (acts : list action) (c : cell) : completion (list T) :=
  match acts with
  | [] => mret [read c]
  | a :: acts' =>
      c' ← apply a c;
      rest ← observe acts' c';
      mret (read c :: rest)
  end.

Definition execution (ls : gmap jsstring jsstring) (acts : list action)
  : completion (list T) :=
  c ← mount ls; observe acts c.

(** The value an action hands to [setUser]. *)
Definition written (a : action) : T :=
  match a with
  | Login userData => userData
  | Logout => null
  end.

(** The store slot holds a text [JSON.parse] accepts (the text of [null]
    when the slot is absent). *)
Definition readable (ls : gmap jsstring jsstring) : Prop :=
  is_Some (parse_json (ToString (getItem ls (str "user")))).

(** ** Observers *)

(** Modelled from the spec: the observer registry of the cell, which is
    missing from the repository (consumers attach to the provider through
    the framework's [useContext], whose code is not part of the sources).
    The spec has an explicit list of observers; a subscription is known by
    its handle, and [delivered] records every invocation of an observer
    together with the value the cell held at that moment. *)
Record observed := {
  inner : cell;
  observers : list nat;
  next_handle : nat;
  delivered : list (nat * T)
}.

(** Modelled from the spec: construction of the cell with its registry,
    missing from the repository; nobody is subscribed at first. *)
Definition construct (ls : gmap jsstring jsstring) : completion observed :=
  c ← mount ls;
  mret {| inner := c; observers := []; next_handle := 0; delivered := [] |}.

(** Modelled from the spec: the notify step, missing from the repository;
    every current observer is invoked once, before the write returns. *)
Definition notify (c : cell) (o : observed) : observed :=
  {| inner := c;
     observers := observers o;
     next_handle := next_handle o;
     delivered := delivered o ++ ((fun h => (h, read c)) <$> observers o) |}.

(** Modelled from the spec: [write], the provider's [login] followed by
    the notify step that is missing from the repository. *)
Definition write (v : T) (o : observed) : completion observed :=
  c ← login v (inner o); mret (notify c o).

(** Modelled from the spec: [clear], the provider's [logout] followed by
    the notify step that is missing from the repository. *)
Definition clear (o : observed) : completion observed :=
  c ← logout (inner o); mret (notify c o).

(** Modelled from the spec: [subscribe], missing from the repository; the
    observer is registered and the handle that removes it is returned. *)
Definition subscribe (o : observed) : nat * observed :=
  (next_handle o,
   {| inner := inner o;
      observers := observers o ++ [next_handle o];
      next_handle := S (next_handle o);
      delivered := delivered o |}).

(** Modelled from the spec: invoking an unsubscribe handle, missing from
    the repository; the observer of that handle is removed. *)
Definition unsubscribe (h : nat) (o : observed) : observed :=
  {| inner := inner o;
     observers := filter (fun h' => h' ≠ h) (observers o);
     next_handle := next_handle o;
     delivered := delivered o |}.

(** The operations of the cell and what each one returns. *)
Inductive op :=
| Write (v : T)
| Clear
| Read
| Subscribe
| Unsubscribe (h : nat).

Inductive reply :=
| Done
| Value (v : T)
| Handle (h : nat).

Definition step (x : op) (o : observed) : completion (reply * observed) :=
  match x with
  | Write v => o' ← write v o; mret (Done, o')
  | Clear => o' ← clear o; mret (Done, o')
  | Read => mret (Value (read (inner o)), o)
  | Subscribe => let '(h, o') := subscribe o in mret (Handle h, o')
  | Unsubscribe h => mret (Done, unsubscribe h o)
  end.

Fixpoint steps (ops : list op) (o : observed) : completion observed :=
  match ops with
  | [] => mret o
  | x :: ops' => r ← step x o; steps ops' r.2
  end.

(** How often the observer of handle [h] has been invoked. *)
Definition calls (h : nat) (o : observed) : nat :=
  length (filter (fun e => e.1 = h) (delivered o)).

Definition is_write (x : op) : bool :=
  match x with
  | Write _ | Clear => true
  | _ => false
  end.

Definition count_writes (ops : list op) : nat :=
  length (filter (fun x => is_write x = true) ops).

(** Some operation of [ops] invokes the unsubscribe handle [h]. *)
Definition cancels (h : nat) (ops : list op) : bool :=
  existsb (fun x => match x with Unsubscribe h' => Nat.eqb h' h | _ => false end)
          ops.

(** How often [h] occurs among the handles [l]. *)
Definition occurrences (h : nat) (l : list nat) : nat :=
  length (filter (fun h' => h' = h) l).

(** What construction and the operations maintain: the store is readable,
    no handle is registered twice, and every handle in use was issued. *)
Definition registry_ok (o : observed) : Prop :=
  readable (localStorage (inner o)) /\
  NoDup (observers o) /\
  Forall (fun h => h < next_handle o) (observers o) /\
  Forall (fun e => e.1 < next_handle o) (delivered o).

(** The state an operation leads to when the provider's render returns. *)
Definition after (x : op) (o : observed) : reply * observed :=
  let stored v := {| localStorage := localStorage (inner o); user := v |} in
  match x with
  | Write v => (Done, notify (stored v) o)
  | Clear => (Done, notify (stored null) o)
  | Read => (Value (read (inner o)), o)
  | Subscribe => (Handle (next_handle o), (subscribe o).2)
  | Unsubscribe h => (Done, unsubscribe h o)
  end.

(** ** The provider *)

Lemma bind_Return {A B} (m : completion A) (f : A -> completion B) b :
  m ≫= f = Return b -> exists a, m = Return a /\ f a = Return b.
Proof. destruct m as [a|e]; simpl; [eauto | discriminate]. Qed.

(** A render returns exactly when the slot is readable, and then provides
    the hook's value over the same store. *)
Lemma render_Return ls hook c :
  render ls hook = Return c -> localStorage c = ls /\ readable ls.
Proof.
  unfold render, AuthProvider, JSON_parse, readable.
  destruct (parse_json _) as [j|]; simpl; [|discriminate].
  intros [= <-]. eauto.
Qed.

Lemma render_hook ls v :
  readable ls -> render ls (Some v) = Return {| localStorage := ls; user := v |}.
Proof.
  unfold render, AuthProvider, JSON_parse, readable.
  intros [j ->]. reflexivity.
Qed.

Lemma render_throws ls hook :
  ~ readable ls -> render ls hook = Throw SyntaxError.
Proof.
  unfold render, AuthProvider, JSON_parse, readable.
  destruct (parse_json _) as [j|]; simpl; [|reflexivity].
  intros H. destruct H. eauto.
Qed.

Lemma apply_Return a c c' :
  apply a c = Return c' ->
  localStorage c' = localStorage c /\ readable (localStorage c).
Proof. destruct a; apply render_Return. Qed.

Lemma run_storage acts : forall c c',
  run acts c = Return c' -> localStorage c' = localStorage c.
Proof.
  induction acts as [|a acts IH]; simpl; intros c c' H.
  - by injection H as <-.
  - apply bind_Return in H as (c1 & H1 & H2).
    apply apply_Return in H1 as [H1 _]. rewrite <- H1. by apply IH.
Qed.

(** Every cell that construction and later actions lead to still sits on a
    readable store. *)
Lemma reachable_readable ls c0 acts c :
  mount ls = Return c0 -> run acts c0 = Return c -> readable (localStorage c).
Proof.
  intros Hm Hr. apply render_Return in Hm as [Hls Hok].
  apply run_storage in Hr. by rewrite Hr, Hls.
Qed.

Lemma setUser_readable v c :
  readable (localStorage c) ->
  setUser v c = Return {| localStorage := localStorage c; user := v |}.
Proof. apply render_hook. Qed.

Lemma run_logins_readable vs : forall c,
  readable (localStorage c) ->
  exists c', run (Login <$> vs) c = Return c'
             /\ localStorage c' = localStorage c
             /\ read c' = default (read c) (last vs).
Proof.
  induction vs as [|v vs IH]; intros c Hc; simpl.
  - eauto.
  - unfold login. rewrite (setUser_readable v c Hc). simpl.
    destruct (IH {| localStorage := localStorage c; user := v |} Hc)
      as (c' & Hrun & Hls & Hread).
    exists c'. split; [exact Hrun|]. split; [exact Hls|].
    rewrite Hread. simpl. clear. destruct vs as [|w vs]; [done|].
    rewrite last_cons_cons.
    destruct (last (w :: vs)) eqn:E; [done|]. by apply last_None in E.
Qed.

Lemma login_reachable ls c0 acts c v :
  mount ls = Return c0 -> run acts c0 = Return c ->
  login v c = Return {| localStorage := localStorage c; user := v |}.
Proof.
  intros Hm Hr. apply setUser_readable. by eapply reachable_readable.
Qed.

(** C1, as amended.  When the ['user'] slot is absent, construction returns
    a cell and [read] gives [null]; when the slot holds a text that is not
    JSON, construction throws the [SyntaxError] of [JSON.parse]. *)
Theorem mount_absent_or_malformed ls :
  (getItem ls (str "user") = None ->
   exists c, mount ls = Return c /\ read c = null) /\
  (forall s, getItem ls (str "user") = Some s -> parse_json s = None ->
             mount ls = Throw SyntaxError).
Proof.
  unfold mount, render, AuthProvider, JSON_parse. split.
  - intros ->. simpl. eauto.
  - intros s -> Hs. simpl. by rewrite Hs.
Qed.

(** C2.  On every cell reached from a construction, [login v] returns and
    [read] then gives exactly [v]. *)
Theorem login_then_read ls c0 acts c v :
  mount ls = Return c0 -> run acts c0 = Return c ->
  exists c', login v c = Return c' /\ read c' = v.
Proof.
  intros Hm Hr. rewrite (login_reachable ls c0 acts c v Hm Hr). eauto.
Qed.

(** C3.  Writing [vs] in order, the cell holds after the write number [k]
    the value written by it, whatever was written before: in particular
    the last value of [vs] once all of them are written. *)
Theorem last_write_wins ls c0 acts c (vs : list T) k v :
  mount ls = Return c0 -> run acts c0 = Return c ->
  vs !! k = Some v ->
  exists c', run (Login <$> take (S k) vs) c = Return c' /\ read c' = v.
Proof.
  intros Hm Hr Hk. pose proof (reachable_readable _ _ _ _ Hm Hr) as Hc.
  destruct (run_logins_readable (take (S k) vs) c Hc) as (c' & Hrun & _ & Hread).
  exists c'. split; [exact Hrun|].
  rewrite Hread. erewrite take_S_r by exact Hk. by rewrite last_snoc.
Qed.

(** C4.  [logout] is [login null]: both lead to the same completion from
    every cell, and on a cell reached from a construction that completion
    is a cell whose [read] gives [null]. *)
Theorem logout_is_login_null c :
  logout c = login null c /\
  (forall ls c0 acts,
      mount ls = Return c0 -> run acts c0 = Return c ->
      exists c', logout c = Return c' /\ read c' = null).
Proof.
  split; [reflexivity|]. intros ls c0 acts Hm Hr.
  unfold logout. fold (login null).
  rewrite (login_reachable ls c0 acts c null Hm Hr). eauto.
Qed.

(** C8.  No sequence of [login] and [logout] changes the store: the cell it
    leads to sits on the [localStorage] it started with. *)
Theorem writes_keep_store acts c c' :
  run acts c = Return c' -> localStorage c' = localStorage c.
Proof. apply run_storage. Qed.

Lemma render_cases ls hook :
  render ls hook =
  match parse_json (ToString (getItem ls (str "user"))) with
  | Some j => Return {| localStorage := ls; user := useState hook (reify j) |}
  | None => Throw SyntaxError
  end.
Proof.
  unfold render, AuthProvider, JSON_parse.
  by destruct (parse_json _).
Qed.

Lemma observe_slot acts : forall c1 c2,
  getItem (localStorage c1) (str "user") = getItem (localStorage c2) (str "user") ->
  user c1 = user c2 ->
  observe acts c1 = observe acts c2.
Proof.
  induction acts as [|a acts IH]; intros c1 c2 Hslot Huser; simpl.
  - unfold read. by rewrite Huser.
  - assert (forall v, setUser v c1 ≫= (fun c' => observe acts c' ≫= (fun rest => mret (read c1 :: rest)))
                    = setUser v c2 ≫= (fun c' => observe acts c' ≫= (fun rest => mret (read c2 :: rest)))) as H.
    { intros v. unfold setUser. rewrite !render_cases, Hslot.
      destruct (parse_json _) as [j|]; simpl; [|done].
      rewrite (IH _ {| localStorage := localStorage c2; user := v |}) by done.
      unfold read. by rewrite Huser. }
    destruct a; apply H.
Qed.

Lemma observe_readable acts : forall c,
  readable (localStorage c) ->
  observe acts c = Return (read c :: (written <$> acts)).
Proof.
  induction acts as [|a acts IH]; intros c Hc; simpl; [reflexivity|].
  assert (apply a c = Return {| localStorage := localStorage c; user := written a |})
    as ->.
  { destruct a; simpl; unfold login, logout; by rewrite setUser_readable. }
  simpl. by rewrite IH.
Qed.

(** C10.  Two executions whose stores hold the same ['user'] slot and that
    apply the same actions complete alike, and every [read] along the way
    returns the same value in both: when the text of the slot is not JSON
    both throw at construction; otherwise the first [read] returns the value
    of that text and the [read] after each action the value that action
    wrote, whatever the rest of the store holds. *)
Theorem execution_deterministic ls1 ls2 acts :
  getItem ls1 (str "user") = getItem ls2 (str "user") ->
  execution ls1 acts = execution ls2 acts /\
  execution ls2 acts =
  match parse_json (ToString (getItem ls1 (str "user"))) with
  | Some j => Return (reify j :: (written <$> acts))
  | None => Throw SyntaxError
  end.
Proof.
  intros Hslot.
  assert (forall ls, execution ls acts =
            match parse_json (ToString (getItem ls (str "user"))) with
            | Some j => Return (reify j :: (written <$> acts))
            | None => Throw SyntaxError
            end) as Htrace.
  { intros ls. unfold execution, mount. rewrite render_cases.
    destruct (parse_json _) as [j|] eqn:Hj; simpl; [|reflexivity].
    rewrite observe_readable; [reflexivity|].
    unfold readable. simpl. rewrite Hj. eauto. }
  split; [by rewrite !Htrace, Hslot|]. by rewrite Htrace, Hslot.
Qed.

(** ** The observers *)


Lemma step_after x o :
  readable (localStorage (inner o)) -> step x o = Return (after x o).
Proof.
  intros Hok. destruct x; simpl; try reflexivity.
  - unfold write, login. by rewrite setUser_readable.
  - unfold clear, logout. by rewrite setUser_readable.
Qed.

Lemma occurrences_fmap h (v : T) (l : list nat) :
  length (filter (fun e : nat * T => e.1 = h) ((fun h' => (h', v)) <$> l))
  = occurrences h l.
Proof.
  unfold occurrences. induction l as [|x l IH]; [done|].
  rewrite fmap_cons, !filter_cons. simpl.
  destruct (decide (x = h)); simpl; by rewrite IH.
Qed.

Lemma occurrences_absent h l : h ∉ l -> occurrences h l = 0.
Proof.
  unfold occurrences. induction l as [|x l IH]; [done|].
  rewrite not_elem_of_cons. intros [Hne Hl].
  rewrite filter_cons_False by congruence. by apply IH.
Qed.

Lemma occurrences_once h l : NoDup l -> h ∈ l -> occurrences h l = 1.
Proof.
  unfold occurrences. induction 1 as [|x l Hx Hl IH]; [by intros ?%elem_of_nil|].
  rewrite elem_of_cons. intros [->|Hin].
  - rewrite filter_cons_True by done. simpl. f_equal.
    by apply occurrences_absent.
  - rewrite filter_cons_False; [by apply IH|]. by intros ->.
Qed.

Lemma calls_notify h c o :
  calls h (notify c o) = calls h o + occurrences h (observers o).
Proof.
  unfold calls, notify. simpl.
  by rewrite filter_app, List.length_app, occurrences_fmap.
Qed.

Lemma notify_ok c o :
  localStorage c = localStorage (inner o) -> registry_ok o -> registry_ok (notify c o).
Proof.
  intros Hls (Hr & Hnd & Hobs & Hdel). unfold registry_ok, notify. simpl.
  rewrite Hls. repeat split; try done.
  apply Forall_app. split; [done|].
  apply Forall_fmap. by apply (Forall_impl _ _ _ Hobs).
Qed.

(** Every operation keeps the registry well formed and never takes back a
    handle it has issued. *)
Lemma after_ok x o :
  registry_ok o ->
  registry_ok (after x o).2 /\ next_handle o <= next_handle (after x o).2.
Proof.
  intros Hok. destruct x; simpl.
  - split; [by apply notify_ok|done].
  - split; [by apply notify_ok|done].
  - done.
  - destruct Hok as (Hr & Hnd & Hobs & Hdel).
    split; [|lia]. unfold registry_ok. simpl. repeat split; try done.
    + apply NoDup_app. repeat split; [done| |apply NoDup_singleton].
      intros h Hh ->%list_elem_of_singleton.
      rewrite Forall_forall in Hobs. specialize (Hobs _ Hh). lia.
    + apply Forall_app. split; [|apply Forall_singleton; simpl; lia].
      apply (Forall_impl _ _ _ Hobs). intros h Hh. simpl in *. lia.
    + apply (Forall_impl _ _ _ Hdel). intros e He. simpl in *. lia.
  - destruct Hok as (Hr & Hnd & Hobs & Hdel).
    split; [|done]. unfold registry_ok. simpl. repeat split; try done.
    + by apply NoDup_filter.
    + rewrite Forall_forall in *. intros h' [_ Hh']%list_elem_of_filter. auto.
Qed.

Lemma calls_after h x o :
  calls h (after x o).2
  = calls h o + (if is_write x then occurrences h (observers o) else 0).
Proof. destruct x; simpl; rewrite ?calls_notify; unfold calls; simpl; lia. Qed.

Lemma steps_ok ops : forall o o',
  registry_ok o -> steps ops o = Return o' ->
  registry_ok o' /\ next_handle o <= next_handle o'.
Proof.
  induction ops as [|x ops IH]; simpl; intros o o' Hok H.
  - injection H as <-. done.
  - rewrite step_after in H by apply Hok. simpl in H.
    destruct (after_ok x o Hok) as [Hok1 Hle1].
    destruct (IH _ _ Hok1 H) as [Hok' Hle']. split; [done|lia].
Qed.

Lemma construct_ok ls o : construct ls = Return o -> registry_ok o.
Proof.
  unfold construct. intros (c & Hm & [= <-])%bind_Return.
  apply render_Return in Hm as [Hls Hr].
  unfold registry_ok. simpl. rewrite Hls.
  repeat split; [done|constructor|constructor|constructor].
Qed.


Lemma count_writes_cons x ops :
  count_writes (x :: ops) = (if is_write x then 1 else 0) + count_writes ops.
Proof.
  unfold count_writes. rewrite filter_cons.
  destruct (is_write x); by case_decide.
Qed.

(** A registered observer stays registered until its own handle is
    invoked. *)
Lemma after_keeps h x o :
  h ∈ observers o -> cancels h [x] = false -> h ∈ observers (after x o).2.
Proof.
  intros Hin Hx. destruct x as [v| | | |h']; simpl; try done.
  - apply elem_of_app. by left.
  - apply list_elem_of_filter. split; [|done].
    simpl in Hx. rewrite orb_false_r in Hx.
    by apply Nat.eqb_neq in Hx.
Qed.

(** A handle that was issued and is no longer registered never comes
    back. *)
Lemma after_stays_out h x o :
  h ∉ observers o -> h < next_handle o -> h ∉ observers (after x o).2.
Proof.
  intros Hout Hlt. destruct x as [v| | | |h']; simpl; try done.
  - rewrite elem_of_app, list_elem_of_singleton. intros [?| ->]; [done|lia].
  - by intros [_ ?]%list_elem_of_filter.
Qed.

Lemma steps_subscribed h ops : forall o,
  registry_ok o -> h ∈ observers o -> cancels h ops = false ->
  exists o', steps ops o = Return o'
             /\ registry_ok o' /\ h ∈ observers o'
             /\ calls h o' = calls h o + count_writes ops.
Proof.
  induction ops as [|x ops IH]; intros o Hok Hin Hc; simpl.
  - exists o. do 3 (split; [done|]).
    unfold count_writes. rewrite filter_nil. simpl. lia.
  - simpl in Hc. apply orb_false_iff in Hc as [Hx Hc].
    rewrite step_after by apply Hok. simpl.
    destruct (after_ok x o Hok) as [Hok1 _].
    assert (h ∈ observers (after x o).2) as Hin1.
    { apply after_keeps; [done|]. simpl. by rewrite Hx. }
    destruct (IH _ Hok1 Hin1 Hc) as (o' & Hrun & Hok' & Hin' & Hcalls).
    exists o'. do 3 (split; [done|]).
    rewrite Hcalls, calls_after, count_writes_cons.
    destruct Hok as (_ & Hnd & _).
    rewrite (occurrences_once h _ Hnd Hin). destruct (is_write x); lia.
Qed.

Lemma steps_unsubscribed h ops : forall o,
  registry_ok o -> h ∉ observers o -> h < next_handle o ->
  exists o', steps ops o = Return o' /\ calls h o' = calls h o.
Proof.
  induction ops as [|x ops IH]; intros o Hok Hout Hlt; simpl.
  - by exists o.
  - rewrite step_after by apply Hok. simpl.
    destruct (after_ok x o Hok) as [Hok1 Hle].
    pose proof (after_stays_out h x o Hout Hlt) as Hout1.
    destruct (IH _ Hok1 Hout1) as (o' & Hrun & Hcalls); [lia|].
    exists o'. split; [done|].
    rewrite Hcalls, calls_after, (occurrences_absent h _ Hout).
    destruct (is_write x); lia.
Qed.

Lemma subscribe_ok o h o1 :
  registry_ok o -> subscribe o = (h, o1) ->
  registry_ok o1 /\ h ∈ observers o1 /\ h < next_handle o1 /\ calls h o1 = 0.
Proof.
  intros Hok [= <- <-]. destruct (after_ok Subscribe o Hok) as [Hok1 _].
  split; [exact Hok1|]. simpl. split; [|split; [lia|]].
  - apply elem_of_app. right. by apply list_elem_of_singleton.
  - destruct Hok as (_ & _ & _ & Hdel). unfold calls. simpl.
    induction Hdel as [|e l He Hl IH]; [done|].
    rewrite filter_cons_False; [done|]. simpl in *. lia.
Qed.

Lemma unsubscribe_twice h o : unsubscribe h (unsubscribe h o) = unsubscribe h o.
Proof.
  unfold unsubscribe. simpl. f_equal.
  by apply list_filter_filter_l.
Qed.

Lemma steps_unsubscribe_again h n : forall o,
  steps (replicate n (Unsubscribe h)) (unsubscribe h o)
  = Return (unsubscribe h o).
Proof.
  induction n as [|n IH]; intros o; simpl; [reflexivity|].
  rewrite unsubscribe_twice. apply IH.
Qed.

(** A write hands the value it has just stored to every registered
    observer. *)
Lemma after_delivers h w o :
  is_write w = true -> h ∈ observers o ->
  (h, read (inner (after w o).2)) ∈ delivered (after w o).2.
Proof.
  intros Hw Hin.
  destruct w; try discriminate; simpl; apply elem_of_app; right;
    by apply (list_elem_of_fmap_2 (fun h' => (h', _))).
Qed.

Lemma clear_is_write_null o : clear o = write null o.
Proof. reflexivity. Qed.

(** C5.  Once an observer is subscribed on a cell reached from a
    construction, and for as long as its handle is not invoked: nothing has
    been delivered to it at subscription; after any operations [ops] it has
    been invoked as many times as [ops] holds writes and clears (so not at
    all before the first of them); and one more write or clear returns with
    exactly one more invocation of it already made, in which it was handed
    the value the cell now holds. *)
Theorem subscriber_notified_once_per_write ls o0 pre o h o1 ops :
  construct ls = Return o0 -> steps pre o0 = Return o ->
  subscribe o = (h, o1) -> cancels h ops = false ->
  calls h o1 = 0 /\
  exists o2, steps ops o1 = Return o2 /\ calls h o2 = count_writes ops /\
    forall w, is_write w = true ->
      exists o3, step w o2 = Return (Done, o3) /\ calls h o3 = S (calls h o2)
                 /\ (h, read (inner o3)) ∈ delivered o3.
Proof.
  intros Hc Hpre Hsub Hcan.
  destruct (steps_ok pre o0 o (construct_ok _ _ Hc) Hpre) as [Hok _].
  destruct (subscribe_ok o h o1 Hok Hsub) as (Hok1 & Hin1 & _ & Hzero).
  split; [exact Hzero|].
  destruct (steps_subscribed h ops o1 Hok1 Hin1 Hcan)
    as (o2 & Hrun & Hok2 & Hin2 & Hcalls).
  exists o2. split; [exact Hrun|]. split; [lia|].
  intros w Hw. exists (after w o2).2.
  rewrite step_after by apply Hok2. split; [by destruct w|]. split.
  - rewrite calls_after, Hw.
    destruct Hok2 as (_ & Hnd & _).
    rewrite (occurrences_once h _ Hnd Hin2). lia.
  - by apply after_delivers.
Qed.

(** C6.  After the handle of a subscription has been invoked, whatever is
    done to the cell afterwards completes without one more invocation of
    that observer. *)
Theorem unsubscribed_never_notified ls o0 pre o h o1 mid o2 ops :
  construct ls = Return o0 -> steps pre o0 = Return o ->
  subscribe o = (h, o1) -> steps mid o1 = Return o2 ->
  exists o3, steps ops (unsubscribe h o2) = Return o3
             /\ calls h o3 = calls h (unsubscribe h o2).
Proof.
  intros Hc Hpre Hsub Hmid.
  destruct (steps_ok pre o0 o (construct_ok _ _ Hc) Hpre) as [Hok _].
  destruct (subscribe_ok o h o1 Hok Hsub) as (Hok1 & _ & Hlt & _).
  destruct (steps_ok mid o1 o2 Hok1 Hmid) as [Hok2 Hle].
  destruct (after_ok (Unsubscribe h) o2 Hok2) as [Hok3 _].
  apply steps_unsubscribed; [exact Hok3| |simpl; lia].
  simpl. intros [Hne _]%list_elem_of_filter. by apply Hne.
Qed.

(** C7.  Invoking an unsubscribe handle once or any number of times more
    returns normally and leaves the cell exactly as the first call did. *)
Theorem unsubscribe_idempotent h o n :
  steps (replicate (S n) (Unsubscribe h)) o = Return (unsubscribe h o).
Proof. simpl. apply steps_unsubscribe_again. Qed.

(** ** Across renders and reloads *)

Lemma run_app acts1 acts2 : forall c,
  run (acts1 ++ acts2) c = run acts1 c ≫= run acts2.
Proof.
  induction acts1 as [|a acts1 IH]; intros c; simpl; [reflexivity|].
  destruct (apply a c) as [c'|e]; simpl; [apply IH|reflexivity].
Qed.

Lemma apply_store a c1 c2 :
  localStorage c1 = localStorage c2 -> apply a c1 = apply a c2.
Proof. intros H. destruct a; simpl; unfold login, logout, setUser; by rewrite H. Qed.

Lemma run_readable acts : forall c,
  readable (localStorage c) ->
  exists c', run acts c = Return c' /\ localStorage c' = localStorage c.
Proof.
  induction acts as [|a acts IH]; intros c Hc; simpl; [by exists c|].
  assert (exists c1, apply a c = Return c1 /\ localStorage c1 = localStorage c)
    as (c1 & -> & Hls).
  { destruct a; simpl; unfold login, logout;
      rewrite setUser_readable by done; eauto. }
  simpl. rewrite <- Hls in Hc. destruct (IH c1 Hc) as (c' & Hrun & Hls').
  exists c'. split; [done|]. by rewrite Hls'.
Qed.

(** X1.  Nothing [login] or [logout] does outlives the page: constructing the
    provider again over the store of any cell reached from a construction
    gives the cell that construction gave. *)
Theorem remount_forgets_actions ls c0 acts c :
  mount ls = Return c0 -> run acts c0 = Return c ->
  mount (localStorage c) = Return c0.
Proof.
  intros Hm Hr. apply run_storage in Hr. rewrite Hr.
  pose proof Hm as [Hls _]%render_Return. by rewrite Hls.
Qed.

(** X2.  From a constructed cell every sequence of actions returns, and the
    cell it leads to is the one its last action alone leads to. *)
Theorem run_is_last_action ls c0 acts a :
  mount ls = Return c0 ->
  run (acts ++ [a]) c0 = apply a c0 /\ exists c, apply a c0 = Return c.
Proof.
  intros [Hls Hr]%render_Return. rewrite <- Hls in Hr.
  destruct (run_readable acts c0 Hr) as (c1 & Hrun & Hls1).
  destruct (run_readable [a] c0 Hr) as (c2 & Hrun2 & _).
  simpl in Hrun2. destruct (apply a c0) as [c3|e] eqn:Ha; [|discriminate].
  split; [|by exists c3].
  rewrite run_app, Hrun. simpl. rewrite (apply_store a c1 c0 Hls1), Ha.
  reflexivity.
Qed.

(** X3.  Construction returns a cell exactly when the ['user'] slot holds a
    JSON text (or is absent, which reads as the text of [null]), and the
    cell then holds the value of that text over the same store. *)
Theorem mount_restores_slot ls c :
  mount ls = Return c <->
  exists j, parse_json (ToString (getItem ls (str "user"))) = Some j
            /\ c = {| localStorage := ls; user := reify j |}.
Proof.
  unfold mount. rewrite render_cases.
  destruct (parse_json _) as [j|]; simpl; split.
  - intros [= <-]. eauto.
  - by intros (j' & [= <-] & ->).
  - discriminate.
  - by intros (j' & ? & _).
Qed.

Lemma run_blank s :
  Forall (fun c => Parser.is_ws c = true) s ->
  Parser.run (Parser.MValue, []) s = Some (Parser.MValue, []).
Proof.
  induction 1 as [|c s Hc _ IH]; simpl; [reflexivity|]. by rewrite Hc.
Qed.

(** X4.  An empty slot, or one that holds nothing but white space, makes
    construction throw. *)
Theorem mount_blank_slot_throws ls s :
  getItem ls (str "user") = Some s ->
  Forall (fun c => Parser.is_ws c = true) s ->
  mount ls = Throw SyntaxError.
Proof.
  intros Hs Hws. unfold mount. rewrite render_cases, Hs. simpl.
  unfold parse_json, Parser.parse. by rewrite run_blank.
Qed.

End AuthContext.

(** ** The parser on sample texts *)

Example parse_null : parse_json (str "null") = Some JNull.
Proof. reflexivity. Qed.

Example parse_user :
  parse_json (txt "{'name':'Ann','email':'ann@x.com'}")
  = Some (JObject [(str "name", JString (str "Ann"));
                   (str "email", JString (str "ann@x.com"))]).
Proof. reflexivity. Qed.

Example parse_nested :
  parse_json (txt " [1, -2.50e3, true, [], {'k': 'a\u0041\n'}] ")
  = Some (JArray [JNumber false 1 0; JNumber true 250 1; JBool true; JArray [];
                  JObject [(str "k", JString [97; 65; 10]%N)]]).
Proof. reflexivity. Qed.

Example parse_rejects :
  Forall (fun text => parse_json text = None)
         [[]; str "{"; str "nul"; str "undefined"; str "01"; str "1.";
          str "[1,]"; txt "{'a':1,}"; str "{'a':1}"; str "1 2"; str "[}";
          txt "'open"; txt "{'a' 1}"; str "-"; str "1e"; str "]"].
Proof. repeat constructor. Qed.

(** ** The component on a host whose values are the parsed trees *)

(** The scenario of the spec: no persisted data, then [login], then
    [logout]. *)
Example scenario :
  execution id empty_store [Login ann; Logout] = Return [JNull; ann; JNull].
Proof. reflexivity. Qed.

(** A persisted record is what the cell holds at construction. *)
Example restored_session : execution id ann_store [] = Return [ann].
Proof. reflexivity. Qed.

(** C1 as stated fails: the slot of [broken_store] holds a malformed text,
    and construction does not return a cell. *)
Lemma malformed_slot_raises :
  (exists s, getItem broken_store (str "user") = Some s /\ parse_json s = None) /\
  ~ (exists c : cell, mount id broken_store = Return c /\ read c = null id).
Proof.
  split.
  - exists (str "{"). split; reflexivity.
  - intros (c & Hm & _). discriminate Hm.
Qed.

Lemma mount_absent_or_malformed_witness :
  getItem empty_store (str "user") = None /\
  (exists c : cell, mount id empty_store = Return c /\ read c = null id) /\
  getItem broken_store (str "user") = Some (str "{") /\
  parse_json (str "{") = None /\
  mount (T:=json) id broken_store = Throw SyntaxError.
Proof.
  split; [reflexivity|]. split.
  { apply (proj1 (mount_absent_or_malformed id empty_store)). reflexivity. }
  split; [reflexivity|]. split; [reflexivity|].
  apply (proj2 (mount_absent_or_malformed id broken_store) (str "{"));
    reflexivity.
Defined.

Lemma login_then_read_witness :
  exists c0 c,
    mount id ann_store = Return c0 /\ run id [Logout] c0 = Return c /\
    exists c', login id ann c = Return c' /\ read c' = ann.
Proof.
  eexists _, _. split; [reflexivity|]. split; [reflexivity|].
  eapply (login_then_read id ann_store _ [Logout]); reflexivity.
Defined.

Lemma last_write_wins_witness :
  exists c0,
    mount id empty_store = Return c0 /\
    [JNull; ann; JBool true] !! 1 = Some ann /\
    exists c', run id (Login <$> take 2 [JNull; ann; JBool true]) c0 = Return c'
               /\ read c' = ann.
Proof.
  eexists. split; [reflexivity|]. split; [reflexivity|].
  eapply (last_write_wins id empty_store _ [] _ [JNull; ann; JBool true] 1 ann);
    reflexivity.
Defined.

Lemma logout_is_login_null_witness :
  exists c0 c,
    mount id ann_store = Return c0 /\ run id [Login (JBool true)] c0 = Return c /\
    logout id c = login id (null id) c /\
    exists c', logout id c = Return c' /\ read c' = null id.
Proof.
  eexists _, _. split; [reflexivity|]. split; [reflexivity|]. split.
  - apply logout_is_login_null.
  - eapply (proj2 (logout_is_login_null id _) ann_store _ [Login (JBool true)]);
      reflexivity.
Defined.

Lemma writes_keep_store_witness :
  exists c',
    run id [Login ann; Logout]
        {| localStorage := ann_store; user := JNull |} = Return c' /\
    localStorage c' = ann_store.
Proof.
  eexists. split; [reflexivity|].
  apply (writes_keep_store id [Login ann; Logout]
           {| localStorage := ann_store; user := JNull |}).
  reflexivity.
Defined.

Lemma execution_deterministic_witness :
  getItem ann_store (str "user")
  = getItem (<[str "theme" := str "dark"]> ann_store) (str "user") /\
  execution id ann_store [Logout; Login (JBool true)]
  = execution id (<[str "theme" := str "dark"]> ann_store)
              [Logout; Login (JBool true)] /\
  execution id (<[str "theme" := str "dark"]> ann_store)
            [Logout; Login (JBool true)]
  = Return [ann; JNull; JBool true].
Proof.
  split; [reflexivity|].
  apply (execution_deterministic id ann_store
           (<[str "theme" := str "dark"]> ann_store) [Logout; Login (JBool true)]).
  reflexivity.
Defined.


Lemma subscriber_notified_once_per_write_witness :
  let c := {| localStorage := empty_store; user := JNull |} in
  let o0 := {| inner := c; observers := []; next_handle := 0; delivered := [] |} in
  let o := {| inner := c; observers := [0]; next_handle := 1; delivered := [] |} in
  let o1 := {| inner := c; observers := [0; 1]; next_handle := 2; delivered := [] |} in
  let ops := [Write ann; Read; Unsubscribe 0; Subscribe; Clear] in
  construct id empty_store = Return o0 /\
  steps id [Subscribe] o0 = Return o /\
  subscribe o = (1, o1) /\
  cancels 1 ops = false /\
  calls 1 o1 = 0 /\
  exists o2,
    steps id ops o1 = Return o2 /\ calls 1 o2 = count_writes ops /\
    forall w, is_write w = true ->
      exists o3, step id w o2 = Return (Done, o3) /\ calls 1 o3 = S (calls 1 o2)
                 /\ (1, read (inner o3)) ∈ delivered o3.
Proof.
  intros c o0 o o1 ops. do 4 (split; [reflexivity|]).
  apply (subscriber_notified_once_per_write id empty_store o0 [Subscribe] o 1 o1 ops);
    reflexivity.
Defined.

Lemma unsubscribed_never_notified_witness :
  let c := {| localStorage := empty_store; user := JNull |} in
  let o0 := {| inner := c; observers := []; next_handle := 0; delivered := [] |} in
  let o1 := {| inner := c; observers := [0]; next_handle := 1; delivered := [] |} in
  let o2 := {| inner := {| localStorage := empty_store; user := ann |};
               observers := [0]; next_handle := 1; delivered := [(0, ann)] |} in
  construct id empty_store = Return o0 /\
  subscribe o0 = (0, o1) /\
  steps id [Write ann] o1 = Return o2 /\
  exists o3,
    steps id [Clear; Subscribe; Write ann] (unsubscribe 0 o2) = Return o3
    /\ calls 0 o3 = calls 0 (unsubscribe 0 o2).
Proof.
  intros c o0 o1 o2. do 3 (split; [reflexivity|]).
  apply (unsubscribed_never_notified id empty_store o0 [] o0 0 o1 [Write ann] o2);
    reflexivity.
Defined.

(** ** Numbers up to [2 ^ 53] *)

Local Open Scope Z_scope.

Lemma round_number_exact z : Z.abs z <= 2 ^ 53 -> round_number z = z.
Proof.
  intros H. unfold round_number.
  destruct (Z.leb_spec (Z.abs z) (2 ^ 53)); [reflexivity|lia].
Qed.

Lemma js_add_top : js_add (2 ^ 53) 1 = 2 ^ 53.
Proof. reflexivity. Qed.

Lemma js_sub_bottom : js_sub (- 2 ^ 53) 1 = - 2 ^ 53.
Proof. reflexivity. Qed.

Lemma js_add_1 x : - 2 ^ 53 <= x < 2 ^ 53 -> js_add x 1 = x + 1.
Proof. intros H. apply round_number_exact. lia. Qed.

Lemma js_sub_1 x : - 2 ^ 53 < x <= 2 ^ 53 -> js_sub x 1 = x - 1.
Proof. intros H. apply round_number_exact. lia. Qed.

(** One more stays within the exact range, sticking at its top. *)
Lemma js_add_1_range x :
  - 2 ^ 53 <= x <= 2 ^ 53 -> - 2 ^ 53 <= js_add x 1 <= 2 ^ 53.
Proof.
  intros H. destruct (decide (x = 2 ^ 53)) as [->|Hx].
  - rewrite js_add_top. lia.
  - rewrite js_add_1 by lia. lia.
Qed.

Lemma js_sub_1_range x :
  - 2 ^ 53 <= x <= 2 ^ 53 -> - 2 ^ 53 <= js_sub x 1 <= 2 ^ 53.
Proof.
  intros H. destruct (decide (x = - 2 ^ 53)) as [->|Hx].
  - rewrite js_sub_bottom. lia.
  - rewrite js_sub_1 by lia. lia.
Qed.

Lemma js_add_1_nonneg x : 0 <= x <= 2 ^ 53 -> 0 <= js_add x 1 <= 2 ^ 53.
Proof.
  intros H. destruct (decide (x = 2 ^ 53)) as [->|Hx].
  - rewrite js_add_top. lia.
  - rewrite js_add_1 by lia. lia.
Qed.

(** ** Home *)

Lemma Home_onClick_range b s :
  - 2 ^ 53 <= Home.count s <= 2 ^ 53 ->
  - 2 ^ 53 <= Home.count (Home.onClick b s) <= 2 ^ 53.
Proof.
  intros H. destruct b; simpl; [by apply js_add_1_range|by apply js_sub_1_range].
Qed.

Lemma Home_clicks_range bs : forall s,
  - 2 ^ 53 <= Home.count s <= 2 ^ 53 ->
  - 2 ^ 53 <= Home.count (Home.clicks bs s) <= 2 ^ 53.
Proof.
  induction bs as [|b bs IH]; intros s H; simpl; [done|].
  apply IH. by apply Home_onClick_range.
Qed.

(** X5.  Whatever is clicked, the counter of Home never leaves the range from
    [- 2 ^ 53] to [2 ^ 53]. *)
Theorem Home_count_bounded bs :
  - 2 ^ 53 <= Home.count (Home.clicks bs Home.mount) <= 2 ^ 53.
Proof. apply Home_clicks_range. simpl. lia. Qed.

Lemma Home_clicks_net bs : forall s,
  Z.abs (Home.count s) + Z.of_nat (length bs) <= 2 ^ 53 ->
  Home.count (Home.clicks bs s) = Home.count s + Home.net bs.
Proof.
  induction bs as [|b bs IH]; intros s H; simpl in *; [lia|].
  destruct b.
  - rewrite IH; simpl; rewrite js_add_1 by lia; lia.
  - rewrite IH; simpl; rewrite js_sub_1 by lia; lia.
Qed.

(** X6.  After at most [2 ^ 53] clicks the counter of Home shows the presses
    of Increment less the presses of Decrement. *)
Theorem Home_count_net bs :
  Z.of_nat (length bs) <= 2 ^ 53 ->
  Home.count (Home.clicks bs Home.mount) = Home.net bs.
Proof. intros H. rewrite Home_clicks_net; simpl; lia. Qed.

(** X7.  On a state Home can reach, Increment and then Decrement lead back
    to that state exactly when the counter is not [2 ^ 53], where Increment
    no longer counts. *)
Theorem Home_increment_decrement bs :
  let s := Home.clicks bs Home.mount in
  Home.onClick Home.Decrement (Home.onClick Home.Increment s) = s
  <-> Home.count s <> 2 ^ 53.
Proof.
  intros s.
  assert (- 2 ^ 53 <= Home.count s <= 2 ^ 53) as Hb.
  { apply Home_clicks_range. simpl. lia. }
  destruct s as [n e c]. simpl in *. unfold Home.setCount. simpl.
  destruct (decide (c = 2 ^ 53)) as [->|Hc].
  - rewrite js_add_top. split; [|done]. intros H.
    apply (f_equal Home.count) in H. simpl in H. revert H. by vm_compute.
  - rewrite js_add_1 by lia. rewrite js_sub_1 by lia. split; [done|].
    intros _. f_equal. lia.
Qed.

(** ** Usecallback and Button *)

Lemma Usecallback_render_keeps s :
  Usecallback.increment s = Some 0%nat ->
  Usecallback.Button_props s
  = Some {| Usecallback.onClick := 0; Usecallback.children := str "Increment Count" |} ->
  Usecallback.Button_renders s = 1%nat ->
  Usecallback.increment (Usecallback.render s) = Some 0%nat /\
  Usecallback.Button_props (Usecallback.render s)
  = Some {| Usecallback.onClick := 0; Usecallback.children := str "Increment Count" |} /\
  Usecallback.Button_renders (Usecallback.render s) = 1%nat.
Proof.
  intros Hi Hp Hr. unfold Usecallback.render. simpl. by rewrite Hi, Hp, Hr.
Qed.

Lemma Usecallback_click_keeps b s :
  Usecallback.increment s = Some 0%nat ->
  Usecallback.Button_props s
  = Some {| Usecallback.onClick := 0; Usecallback.children := str "Increment Count" |} ->
  Usecallback.Button_renders s = 1%nat ->
  Usecallback.increment (Usecallback.click b s) = Some 0%nat /\
  Usecallback.Button_props (Usecallback.click b s)
  = Some {| Usecallback.onClick := 0; Usecallback.children := str "Increment Count" |} /\
  Usecallback.Button_renders (Usecallback.click b s) = 1%nat.
Proof.
  intros Hi Hp Hr.
  destruct b; simpl; unfold Usecallback.setCount, Usecallback.setOtherCount;
    case_bool_decide; try done; by apply Usecallback_render_keeps.
Qed.

Lemma Usecallback_clicks_keep bs : forall s,
  Usecallback.increment s = Some 0%nat ->
  Usecallback.Button_props s
  = Some {| Usecallback.onClick := 0; Usecallback.children := str "Increment Count" |} ->
  Usecallback.Button_renders s = 1%nat ->
  Usecallback.increment (Usecallback.clicks bs s) = Some 0%nat /\
  Usecallback.Button_props (Usecallback.clicks bs s)
  = Some {| Usecallback.onClick := 0; Usecallback.children := str "Increment Count" |} /\
  Usecallback.Button_renders (Usecallback.clicks bs s) = 1%nat.
Proof.
  induction bs as [|b bs IH]; intros s Hi Hp Hr; simpl; [done|].
  destruct (Usecallback_click_keeps b s Hi Hp Hr) as (Hi' & Hp' & Hr').
  by apply IH.
Qed.

(** X8.  Whatever is clicked in Usecallback, the body of Button has run
    once, at the first render, and Button still holds the [increment] that
    render created. *)
Theorem Button_rendered_once bs :
  let s := Usecallback.clicks bs Usecallback.mount in
  Usecallback.Button_renders s = 1%nat /\
  Usecallback.onClick <$> Usecallback.Button_props s = Some 0%nat.
Proof.
  intros s.
  destruct (Usecallback_clicks_keep bs Usecallback.mount) as (_ & Hp & Hr);
    try reflexivity.
  fold s in Hp, Hr. by rewrite Hp.
Qed.

Lemma Usecallback_clicks_count bs : forall s,
  0 <= Usecallback.count s -> 0 <= Usecallback.otherCount s ->
  Usecallback.count s + Z.of_nat (length bs) <= 2 ^ 53 ->
  Usecallback.otherCount s + Z.of_nat (length bs) <= 2 ^ 53 ->
  let s' := Usecallback.clicks bs s in
  Usecallback.count s'
  = Usecallback.count s + Usecallback.presses Usecallback.IncrementCount bs /\
  Usecallback.otherCount s'
  = Usecallback.otherCount s + Usecallback.presses Usecallback.UpdateOtherCount bs /\
  Usecallback.functions s' = (Usecallback.functions s + length bs)%nat.
Proof.
  induction bs as [|b bs IH]; intros s Hc Ho Hcl Hol; simpl in *.
  { repeat split; lia. }
  destruct b; simpl.
  - unfold Usecallback.setCount. rewrite js_add_1 by lia.
    rewrite bool_decide_eq_false_2 by lia.
    edestruct IH as (-> & -> & ->); simpl; [..|repeat split]; lia.
  - unfold Usecallback.setOtherCount. rewrite js_add_1 by lia.
    rewrite bool_decide_eq_false_2 by lia.
    edestruct IH as (-> & -> & ->); simpl; [..|repeat split]; lia.
Qed.

(** X9.  After at most [2 ^ 53] clicks in Usecallback each counter shows the
    presses of its own button, and every click has made the component create
    one more [increment] function. *)
Theorem Usecallback_counts bs :
  Z.of_nat (length bs) <= 2 ^ 53 ->
  let s := Usecallback.clicks bs Usecallback.mount in
  Usecallback.count s = Usecallback.presses Usecallback.IncrementCount bs /\
  Usecallback.otherCount s = Usecallback.presses Usecallback.UpdateOtherCount bs /\
  Usecallback.functions s = S (length bs).
Proof.
  intros H.
  destruct (Usecallback_clicks_count bs Usecallback.mount) as (Hc & Ho & Hf);
    simpl; try lia.
  simpl in *. by rewrite Hc, Ho, Hf.
Qed.

(** ** Useref *)

Section UserefProperties.

Context {T : Type}.
Variable name_of : T -> T.

Lemma Useref_handle_keeps e (s : Useref.state) :
  Useref.prevCountRef s = Some (Useref.count s) ->
  Useref.shown_current s = Useref.count s ->
  Useref.shown_name s = name_of (Useref.user s) ->
  0 <= Useref.count s <= 2 ^ 53 ->
  let s' := Useref.handle name_of e s in
  Useref.prevCountRef s' = Some (Useref.count s') /\
  Useref.shown_current s' = Useref.count s' /\
  Useref.shown_name s' = name_of (Useref.user s') /\
  0 <= Useref.count s' <= 2 ^ 53.
Proof.
  intros Hr Hc Hn Hb. destruct e as [|u]; simpl.
  - unfold Useref.setCount. case_bool_decide as Hv; [done|]. simpl.
    rewrite bool_decide_eq_false_2 by congruence.
    do 3 (split; [done|]). by apply js_add_1_nonneg.
  - rewrite bool_decide_eq_true_2 by done. by do 3 (split; [done|]).
Qed.

Lemma Useref_handles_keep es : forall s : Useref.state,
  Useref.prevCountRef s = Some (Useref.count s) ->
  Useref.shown_current s = Useref.count s ->
  Useref.shown_name s = name_of (Useref.user s) ->
  0 <= Useref.count s <= 2 ^ 53 ->
  let s' := Useref.handles name_of es s in
  Useref.prevCountRef s' = Some (Useref.count s') /\
  Useref.shown_current s' = Useref.count s' /\
  Useref.shown_name s' = name_of (Useref.user s') /\
  0 <= Useref.count s' <= 2 ^ 53.
Proof.
  induction es as [|e es IH]; intros s Hr Hc Hn Hb; simpl; [done|].
  destruct (Useref_handle_keeps e s Hr Hc Hn Hb) as (Hr' & Hc' & Hn' & Hb').
  by apply IH.
Qed.

Lemma Useref_reached es u :
  let s := Useref.handles name_of es (Useref.mount name_of u) in
  Useref.prevCountRef s = Some (Useref.count s) /\
  0 <= Useref.count s <= 2 ^ 53.
Proof.
  intros s.
  by destruct (Useref_handles_keep es (Useref.mount name_of u))
    as (Hr & _ & _ & Hb).
Qed.

(** X10.  Once a render of Useref and its effect are over, the ref holds the
    current count, the page shows that count and the name of the context's
    user, and the count lies between [0] and [2 ^ 53]. *)
Theorem Useref_ref_catches_up es u :
  let s := Useref.handles name_of es (Useref.mount name_of u) in
  Useref.prevCountRef s = Some (Useref.count s) /\
  Useref.shown_current s = Useref.count s /\
  Useref.shown_name s = name_of (Useref.user s) /\
  0 <= Useref.count s <= 2 ^ 53.
Proof. apply Useref_handles_keep; simpl; done. Qed.

(** X11.  Below [2 ^ 53] a press of Increment makes Useref show the count
    before the press as the previous count and one more as the current
    count. *)
Theorem Useref_previous_after_increment es u :
  let s := Useref.handles name_of es (Useref.mount name_of u) in
  Useref.count s < 2 ^ 53 ->
  let s' := Useref.handle name_of Useref.Increment s in
  Useref.shown_previous s' = Some (Useref.count s) /\
  Useref.shown_current s' = Useref.count s + 1.
Proof.
  intros s Hlt. destruct (Useref_reached es u) as (Hr & Hb).
  fold s in Hr, Hb. simpl. unfold Useref.setCount.
  rewrite js_add_1 by lia. rewrite bool_decide_eq_false_2 by lia.
  simpl. by rewrite Hr.
Qed.

(** X12.  When Useref renders because the provider hands down a context
    value, the previous count it shows is the current count: the count
    before the last press is no longer on the page. *)
Theorem Useref_previous_after_provided es u v :
  let s := Useref.handles name_of es (Useref.mount name_of u) in
  let s' := Useref.handle name_of (Useref.Provided v) s in
  Useref.shown_previous s' = Some (Useref.shown_current s') /\
  Useref.shown_current s' = Useref.count s /\
  Useref.shown_name s' = name_of v.
Proof.
  intros s. destruct (Useref_reached es u) as (Hr & _).
  fold s in Hr. simpl. by rewrite Hr.
Qed.

End UserefProperties.

(** ** The extra properties on sample inputs *)

Lemma remount_forgets_actions_witness :
  let c0 := {| localStorage := ann_store; user := ann |} in
  let c := {| localStorage := ann_store; user := JNull |} in
  mount id ann_store = Return c0 /\
  run id [Login (JBool true); Logout] c0 = Return c /\
  mount id (localStorage c) = Return c0.
Proof.
  intros c0 c. do 2 (split; [reflexivity|]).
  apply (remount_forgets_actions id ann_store c0 [Login (JBool true); Logout] c);
    reflexivity.
Defined.

Lemma run_is_last_action_witness :
  let c0 := {| localStorage := empty_store; user := JNull |} in
  mount id empty_store = Return c0 /\
  run id ([Login ann; Logout] ++ [Login (JBool true)]) c0
  = apply id (Login (JBool true)) c0 /\
  exists c, apply id (Login (JBool true)) c0 = Return c.
Proof.
  intros c0. split; [reflexivity|].
  apply (run_is_last_action id empty_store c0 [Login ann; Logout]). reflexivity.
Defined.

Lemma mount_blank_slot_throws_witness :
  let ls : gmap jsstring jsstring := {[ str "user" := str "  " ]} in
  getItem ls (str "user") = Some (str "  ") /\
  Forall (fun c => Parser.is_ws c = true) (str "  ") /\
  mount (T:=json) id ls = Throw SyntaxError.
Proof.
  intros ls. split; [reflexivity|]. split; [repeat constructor|].
  apply (mount_blank_slot_throws id ls (str "  ")); [reflexivity|].
  repeat constructor.
Defined.

Lemma Home_count_net_witness :
  Z.of_nat (length [Home.Increment; Home.Increment; Home.Decrement]) <= 2 ^ 53 /\
  Home.count (Home.clicks [Home.Increment; Home.Increment; Home.Decrement] Home.mount)
  = Home.net [Home.Increment; Home.Increment; Home.Decrement].
Proof.
  split; [simpl; lia|].
  apply (Home_count_net [Home.Increment; Home.Increment; Home.Decrement]).
  simpl. lia.
Defined.

Lemma Usecallback_counts_witness :
  let bs := [Usecallback.IncrementCount; Usecallback.UpdateOtherCount;
             Usecallback.IncrementCount] in
  Z.of_nat (length bs) <= 2 ^ 53 /\
  Usecallback.count (Usecallback.clicks bs Usecallback.mount)
  = Usecallback.presses Usecallback.IncrementCount bs /\
  Usecallback.otherCount (Usecallback.clicks bs Usecallback.mount)
  = Usecallback.presses Usecallback.UpdateOtherCount bs /\
  Usecallback.functions (Usecallback.clicks bs Usecallback.mount) = S (length bs).
Proof.
  intros bs. split; [simpl; lia|].
  apply (Usecallback_counts bs). simpl. lia.
Defined.

Lemma Useref_previous_after_increment_witness :
  let s := Useref.handles optional_name
             [Useref.Increment; Useref.Provided (Some ann)]
             (Useref.mount optional_name None) in
  Useref.count s < 2 ^ 53 /\
  Useref.shown_previous (Useref.handle optional_name Useref.Increment s)
  = Some (Useref.count s) /\
  Useref.shown_current (Useref.handle optional_name Useref.Increment s)
  = Useref.count s + 1.
Proof.
  intros s. split; [by vm_compute|].
  apply (Useref_previous_after_increment optional_name
           [Useref.Increment; Useref.Provided (Some ann)] None).
  by vm_compute.
Defined.

(** The name Useref shows once the provider has handed down the sample
    user. *)
Example Useref_shows_name :
  Useref.shown_name
    (Useref.handles optional_name [Useref.Provided (Some ann)]
                    (Useref.mount optional_name None))
  = Some (JString (str "Ann")).
Proof. reflexivity. Qed.
